(** * Filepath: a validated path value wrapping a pluggable path algebra

    Shallow embedding of [@safelytyped/filepath]:

    - [validateFilepathData]            (the data validator),
    - [Filepath_raw]                    (src/v1/Filepath/Filepath.ts: the
                                         constructor stores its input as is),
    - [makeFilepath]                    (src/v1/Filepath/makeFilepath.ts),
    - [Filepath]                        (the class with [dirname], [extname],
                                         [isAbsolute], [join] and [parse]; its
                                         constructor normalises its input).

    JavaScript strings are modelled as [string] (one character for one
    code unit, which is exact on ASCII paths), numbers used as indices as
    [Z] (the loops of the path algebra use [-1] as a sentinel), [undefined]
    as [None].  The calls a method makes to its path algebra and to its
    [onError] handler are recorded in a trace, in the way the test double
    [DummyPathApi] records its [calledList]. *)

From Stdlib Require Import String Ascii List ZArith Bool Lia.
Import ListNotations.
Open Scope string_scope.
Open Scope Z_scope.

Set Implicit Arguments.

(** ** JavaScript string primitives used by the path algebra *)

Module JS.

Definition len (s : string) : Z := Z.of_nat (String.length s).

(** [s.charCodeAt(i)]; [None] stands for [NaN] (index out of range). *)
Definition charCodeAt (s : string) (i : Z) : option ascii :=
  if i <? 0 then None else String.get (Z.to_nat i) s.

Definition clamp (n i : Z) : Z :=
  if i <? 0 then Z.max (n + i) 0 else Z.min i n.

(** [s.slice(a, b)] *)
Definition slice (s : string) (a b : Z) : string :=
  let from := clamp (len s) a in
  let to := clamp (len s) b in
  if from <? to
  then String.substring (Z.to_nat from) (Z.to_nat (to - from)) s
  else "".

(** Position of the last occurrence of the character [c], or [-1]. *)
Fixpoint lastIndexOf_from (s : string) (c : ascii) (i : Z) (found : Z) : Z :=
  match s with
  | EmptyString => found
  | String a s' =>
      lastIndexOf_from s' c (i + 1) (if Ascii.eqb a c then i else found)
  end.

Definition lastIndexOf (s : string) (c : ascii) : Z :=
  lastIndexOf_from s c 0 (-1).

Definition is_code (o : option ascii) (c : ascii) : bool :=
  match o with
  | Some a => Ascii.eqb a c
  | None => false
  end.

(** Outcome of one run of a loop body. *)
Inductive step (S : Type) : Type :=
| Continue (s : S)
| Break (s : S).

(** [for (i = n - 1; i >= lo; --i) body] *)
Fixpoint for_down (S : Type) (lo : nat) (n : nat)
         (body : Z -> S -> step S) (s : S) : S :=
  match n with
  | O => s
  | Datatypes.S k =>
      if (k <? lo)%nat then s
      else match body (Z.of_nat k) s with
           | Continue s' => for_down lo k body s'
           | Break s' => s'
           end
  end.

(** [for (i = i0; i < i0 + count; ++i) body] *)
Fixpoint for_up (S : Type) (count : nat) (i : Z)
         (body : Z -> S -> step S) (s : S) : S :=
  match count with
  | O => s
  | Datatypes.S c =>
      match body i s with
      | Continue s' => for_up c (i + 1) body s'
      | Break s' => s'
      end
  end.

End JS.

(** ** The consumed capability set: [PathApi] *)

Module ParsedPath.
Record t : Type := mk
  { root : string; dir : string; base : string; ext : string; name : string }.
End ParsedPath.

Module PathApi.
(** The operations of [@safelytyped/node-pathapi]'s [PathApi] that the
    class calls.  [ext] of [basename] is optional. *)
Record t : Type := mk
  { normalize : string -> string;
    join : list string -> string;
    resolve : list string -> string;
    dirname : string -> string;
    basename : string -> option string -> string;
    extname : string -> string;
    isAbsolute : string -> bool;
    parse : string -> ParsedPath.t }.
End PathApi.

(** ** The POSIX path algebra

    Modelled from the spec: the path algebra is an external collaborator
    (Node.js's [path] module), it is not part of the repository.  The
    definitions follow the loops of Node's [path.posix], which the
    repository's tests bind with [{ pathApi: path.posix }]. *)

Module Posix.
Import JS.

Definition CHAR_FORWARD_SLASH : ascii := "/"%char.
Definition CHAR_DOT : ascii := "."%char.

Definition isPosixPathSeparator (code : ascii) : bool :=
  Ascii.eqb code CHAR_FORWARD_SLASH.

Record NState : Type := mkN
  { res : string;
    lastSegmentLength : Z;
    lastSlash : Z;
    dots : Z;
    code : ascii }.

(** The branch of [normalizeString] taken when a [..] segment ends. *)
Definition dotdot (allowAboveRoot : bool) (i : Z) (c : ascii) (st : NState)
  : NState :=
  let r := res st in
  let above :=
    (* falls through to here when nothing can be popped *)
    if allowAboveRoot
    then mkN (if len r >? 0 then r ++ "/.." else "..") 2 i 0 c
    else mkN r (lastSegmentLength st) i 0 c in
  if (len r <? 2)
     || negb (lastSegmentLength st =? 2)
     || negb (is_code (charCodeAt r (len r - 1)) CHAR_DOT)
     || negb (is_code (charCodeAt r (len r - 2)) CHAR_DOT)
  then
    if len r >? 2 then
      let lastSlashIndex := lastIndexOf r CHAR_FORWARD_SLASH in
      if lastSlashIndex =? -1
      then mkN "" 0 i 0 c
      else
        let r' := slice r 0 lastSlashIndex in
        mkN r' (len r' - 1 - lastIndexOf r' CHAR_FORWARD_SLASH) i 0 c
    else if negb (len r =? 0) then mkN "" 0 i 0 c
    else above
  else above.

Definition normalizeString_body (path : string) (allowAboveRoot : bool)
           (i : Z) (st : NState) : step NState :=
  let next : option ascii :=
    (* [None]: the loop is left *)
    if i <? len path then
      match charCodeAt path i with
      | Some a => Some a
      | None => Some (code st)
      end
    else if isPosixPathSeparator (code st) then None
    else Some CHAR_FORWARD_SLASH in
  match next with
  | None => Break st
  | Some c =>
      if isPosixPathSeparator c then
        if (lastSlash st =? i - 1) || (dots st =? 1) then
          Continue (mkN (res st) (lastSegmentLength st) i 0 c)
        else if dots st =? 2 then
          Continue (dotdot allowAboveRoot i c st)
        else
          let seg := slice path (lastSlash st + 1) i in
          Continue (mkN (if len (res st) >? 0
                         then res st ++ "/" ++ seg
                         else seg)
                        (i - lastSlash st - 1) i 0 c)
      else if Ascii.eqb c CHAR_DOT && negb (dots st =? -1) then
        Continue (mkN (res st) (lastSegmentLength st) (lastSlash st)
                      (dots st + 1) c)
      else
        Continue (mkN (res st) (lastSegmentLength st) (lastSlash st) (-1) c)
  end.

(** Resolves [.] and [..] elements in a path with directory names. *)
Definition normalizeString (path : string) (allowAboveRoot : bool) : string :=
  res (for_up (Datatypes.S (String.length path)) 0
              (normalizeString_body path allowAboveRoot)
              (mkN "" 0 (-1) 0 Ascii.zero)).

Definition isAbsolute (path : string) : bool :=
  (len path >? 0) && is_code (charCodeAt path 0) CHAR_FORWARD_SLASH.

Definition normalize (path : string) : string :=
  if len path =? 0 then "."
  else
    let isAbs := is_code (charCodeAt path 0) CHAR_FORWARD_SLASH in
    let trailingSeparator :=
      is_code (charCodeAt path (len path - 1)) CHAR_FORWARD_SLASH in
    let p := normalizeString path (negb isAbs) in
    if len p =? 0 then
      if isAbs then "/"
      else if trailingSeparator then "./" else "."
    else
      let p := if trailingSeparator then p ++ "/" else p in
      if isAbs then "/" ++ p else p.

(** The loop of [join]: [joined] is [undefined] until a non-empty
    argument is seen. *)
Fixpoint join_loop (args : list string) (joined : option string)
  : option string :=
  match args with
  | [] => joined
  | arg :: rest =>
      join_loop rest
        (if len arg >? 0 then
           match joined with
           | None => Some arg
           | Some j => Some (j ++ "/" ++ arg)
           end
         else joined)
  end.

Definition join (args : list string) : string :=
  match args with
  | [] => "."
  | _ =>
      match join_loop args None with
      | None => "."
      | Some joined => normalize joined
      end
  end.

(** The loop of [resolve], over the arguments from the last to the first
    and then the working directory; it stops at the first absolute one. *)
Fixpoint resolve_loop (paths : list string) (resolvedPath : string)
  : string * bool :=
  match paths with
  | [] => (resolvedPath, false)
  | path :: rest =>
      if len path =? 0 then resolve_loop rest resolvedPath
      else
        let resolvedPath := path ++ "/" ++ resolvedPath in
        if is_code (charCodeAt path 0) CHAR_FORWARD_SLASH
        then (resolvedPath, true)
        else resolve_loop rest resolvedPath
  end.

Definition resolve (cwd : string) (args : list string) : string :=
  let '(resolvedPath, resolvedAbsolute) :=
    resolve_loop (rev args ++ [cwd])%list "" in
  let resolvedPath := normalizeString resolvedPath (negb resolvedAbsolute) in
  if resolvedAbsolute then "/" ++ resolvedPath
  else if len resolvedPath >? 0 then resolvedPath else ".".

Definition dirname_body (path : string) (i : Z) (st : Z * bool)
  : step (Z * bool) :=
  let '(e, matchedSlash) := st in
  if is_code (charCodeAt path i) CHAR_FORWARD_SLASH then
    if negb matchedSlash then Break (i, matchedSlash)
    else Continue st
  else Continue (e, false).

Definition dirname (path : string) : string :=
  if len path =? 0 then "."
  else
    let hasRoot := is_code (charCodeAt path 0) CHAR_FORWARD_SLASH in
    let '(e, _) :=
      for_down 1 (String.length path) (dirname_body path) (-1, true) in
    if e =? -1 then (if hasRoot then "/" else ".")
    else if hasRoot && (e =? 1) then "//"
    else slice path 0 e.

Record BState : Type := mkB
  { b_start : Z;
    b_end : Z;
    b_matchedSlash : bool;
    b_extIdx : Z;
    b_firstNonSlashEnd : Z }.

(** Loop of [basename] when a suffix is given. *)
Definition basename_suffix_body (path suffix : string) (i : Z) (st : BState)
  : step BState :=
  let c := charCodeAt path i in
  if is_code c CHAR_FORWARD_SLASH then
    if negb (b_matchedSlash st)
    then Break (mkB (i + 1) (b_end st) (b_matchedSlash st)
                    (b_extIdx st) (b_firstNonSlashEnd st))
    else Continue st
  else
    let st1 :=
      if b_firstNonSlashEnd st =? -1
      then mkB (b_start st) (b_end st) false (b_extIdx st) (i + 1)
      else st in
    if b_extIdx st1 >=? 0 then
      if match c, charCodeAt suffix (b_extIdx st1) with
         | Some a, Some b => Ascii.eqb a b
         | _, _ => false
         end
      then
        let extIdx := b_extIdx st1 - 1 in
        Continue (mkB (b_start st1)
                      (if extIdx =? -1 then i else b_end st1)
                      (b_matchedSlash st1) extIdx (b_firstNonSlashEnd st1))
      else
        Continue (mkB (b_start st1) (b_firstNonSlashEnd st1)
                      (b_matchedSlash st1) (-1) (b_firstNonSlashEnd st1))
    else Continue st1.

(** Loop of [basename] without a suffix. *)
Definition basename_plain_body (path : string) (i : Z) (st : BState)
  : step BState :=
  if is_code (charCodeAt path i) CHAR_FORWARD_SLASH then
    if negb (b_matchedSlash st)
    then Break (mkB (i + 1) (b_end st) (b_matchedSlash st)
                    (b_extIdx st) (b_firstNonSlashEnd st))
    else Continue st
  else if b_end st =? -1 then
    Continue (mkB (b_start st) (i + 1) false
                  (b_extIdx st) (b_firstNonSlashEnd st))
  else Continue st.

Definition basename_plain (path : string) : string :=
  let st := for_down 0 (String.length path) (basename_plain_body path)
                     (mkB 0 (-1) true (-1) (-1)) in
  if b_end st =? -1 then "" else slice path (b_start st) (b_end st).

Definition basename (path : string) (suffix : option string) : string :=
  match suffix with
  | Some suffix =>
      if (len suffix >? 0) && (len suffix <=? len path) then
        if String.eqb suffix path then ""
        else
          let st := for_down 0 (String.length path)
                             (basename_suffix_body path suffix)
                             (mkB 0 (-1) true (len suffix - 1) (-1)) in
          let e :=
            if b_start st =? b_end st then b_firstNonSlashEnd st
            else if b_end st =? -1 then len path
            else b_end st in
          slice path (b_start st) e
      else basename_plain path
  | None => basename_plain path
  end.

Record EState : Type := mkE
  { startDot : Z;
    startPart : Z;
    e_end : Z;
    matchedSlash : bool;
    preDotState : Z }.

(** Loop shared by [extname] and [parse]. *)
Definition ext_body (path : string) (i : Z) (st : EState) : step EState :=
  let c := charCodeAt path i in
  if is_code c CHAR_FORWARD_SLASH then
    if negb (matchedSlash st)
    then Break (mkE (startDot st) (i + 1) (e_end st)
                    (matchedSlash st) (preDotState st))
    else Continue st
  else
    let st1 :=
      if e_end st =? -1
      then mkE (startDot st) (startPart st) (i + 1) false (preDotState st)
      else st in
    if is_code c CHAR_DOT then
      if startDot st1 =? -1
      then Continue (mkE i (startPart st1) (e_end st1)
                         (matchedSlash st1) (preDotState st1))
      else if negb (preDotState st1 =? 1)
      then Continue (mkE (startDot st1) (startPart st1) (e_end st1)
                         (matchedSlash st1) 1)
      else Continue st1
    else if negb (startDot st1 =? -1)
    then Continue (mkE (startDot st1) (startPart st1) (e_end st1)
                       (matchedSlash st1) (-1))
    else Continue st1.

Definition no_ext (st : EState) : bool :=
  (startDot st =? -1)
  || (preDotState st =? 0)
  || ((preDotState st =? 1)
      && (startDot st =? e_end st - 1)
      && (startDot st =? startPart st + 1)).

Definition extname (path : string) : string :=
  let st := for_down 0 (String.length path) (ext_body path)
                     (mkE (-1) 0 (-1) true 0) in
  if no_ext st || (e_end st =? -1) then ""
  else slice path (startDot st) (e_end st).

Definition parse (path : string) : ParsedPath.t :=
  if len path =? 0 then ParsedPath.mk "" "" "" "" ""
  else
    let isAbs := is_code (charCodeAt path 0) CHAR_FORWARD_SLASH in
    let root := if isAbs then "/" else "" in
    let start := if isAbs then 1%nat else 0%nat in
    let st := for_down start (String.length path) (ext_body path)
                       (mkE (-1) 0 (-1) true 0) in
    let dir :=
      if startPart st >? 0 then slice path 0 (startPart st - 1)
      else if isAbs then "/" else "" in
    if negb (e_end st =? -1) then
      let start := if (startPart st =? 0) && isAbs then 1 else startPart st in
      if no_ext st then
        let b := slice path start (e_end st) in
        ParsedPath.mk root dir b "" b
      else
        ParsedPath.mk root dir
                      (slice path start (e_end st))
                      (slice path (startDot st) (e_end st))
                      (slice path start (startDot st))
    else ParsedPath.mk root dir "" "" "".

(** [path.posix], for a process whose working directory is [cwd]. *)
Definition posix (cwd : string) : PathApi.t :=
  PathApi.mk normalize join (resolve cwd) dirname basename extname
             isAbsolute parse.

End Posix.

(** ** Errors, handlers and the call trace

    [AppError], [OnError], [THROW_THE_ERROR], [RefinedString] and
    [applyFunctionalOptions] belong to [@safelytyped/core-types]. *)

(** Modelled from the spec: the structured error passed to a handler
    (kind, message, offending value, logical location). *)
Record AppError : Type := mkAppError
  { kind : string; message : string; offending : string; location : string }.

(** [AppErrorOr<T>]: an [AppError] or a [T]. *)
Definition AppErrorOr (T : Type) : Type := (AppError + T)%type.

(** A handler never returns: it turns the error into what is thrown. *)
Definition OnError : Type := AppError -> AppError.

Definition THROW_THE_ERROR : OnError := fun e => e.

(** What a method does that a caller can observe besides its result. *)
Inductive Event : Type :=
| normalize_called (p : string)
| join_called (paths : list string)
| resolve_called (paths : list string)
| dirname_called (p : string)
| basename_called (p : string) (ext : option string)
| extname_called (p : string)
| isAbsolute_called (p : string)
| parse_called (p : string)
| onError_called (e : AppError).

Definition Trace : Type := list Event.

Inductive Outcome (A : Type) : Type :=
| Returns (a : A)
| Throws (e : AppError).

Arguments Throws {A} e.

(** Computations that extend the trace and return or throw. *)
Definition M (A : Type) : Type := Trace -> Outcome A * Trace.

Definition ret (A : Type) (a : A) : M A := fun t => (Returns a, t).

Definition bind (A B : Type) (m : M A) (k : A -> M B) : M B :=
  fun t =>
    match m t with
    | (Returns a, t') => k a t'
    | (Throws e, t') => (Throws e, t')
    end.

Notation "x <- m ;; k" := (bind m (fun x => k))
  (at level 61, m at next level, right associativity).

(** A call into the path algebra: recorded, then answered. *)
Definition call (A : Type) (e : Event) (answer : A) : M A :=
  fun t => (Returns answer, (t ++ [e])%list).

(** [onError(e)]: recorded, then control does not come back. *)
Definition invoke_onError {A : Type} (onError : OnError) (e : AppError) : M A :=
  fun t => (Throws (onError e), (t ++ [onError_called e])%list).

Definition is_parse_called (e : Event) : bool :=
  match e with parse_called _ => true | _ => false end.

Definition is_onError_called (e : Event) : bool :=
  match e with onError_called _ => true | _ => false end.

Definition parse_calls (t : Trace) : nat :=
  List.length (filter is_parse_called t).

Definition onError_calls (t : Trace) : nat :=
  List.length (filter is_onError_called t).

(** [x = given === undefined ? dflt : given]: a destructured default. *)
Definition or_default (A : Type) (given : option A) (dflt : A) : A :=
  match given with
  | Some a => a
  | None => dflt
  end.

(** [applyFunctionalOptions(input, options, ...fnOpts)] *)
Fixpoint applyFunctionalOptions (T OPT : Type) (input : T) (options : OPT)
         (fnOpts : list (T -> OPT -> M T)) : M T :=
  match fnOpts with
  | [] => ret input
  | fnOpt :: rest =>
      retval <- fnOpt input options ;;
      applyFunctionalOptions retval options rest
  end.

(** ** The validator *)

Record TypeValidatorOptions : Type := mkTypeValidatorOptions
  { path : option string }.

(** [validateFilepathData(input, { path = DEFAULT_DATA_PATH } = {})]: the
    data path is bound and never read. *)
Definition validateFilepathData (input : string) (_ : TypeValidatorOptions)
  : AppErrorOr string :=
  inr input.

(** [OnErrorOptions] *)
Record OnErrorOptions : Type := mkOnErrorOptions
  { onError_of : OnError }.

(** The data guarantee built from a validator.

    Modelled from the spec: [mustBeFilepathData] is imported by the class
    and absent from the sources; it passes the string through the
    validator and, on failure, invokes [onError] with the failure. *)
Definition mustBe (validator : string -> TypeValidatorOptions -> AppErrorOr string)
           (input : string) (options : OnErrorOptions) : M string :=
  match validator input (mkTypeValidatorOptions None) with
  | inl e => invoke_onError (onError_of options) e
  | inr v => ret v
  end.

Definition mustBeFilepathData : string -> OnErrorOptions -> M string :=
  mustBe validateFilepathData.

(** [RefinedString]'s constructor: the wrapped value is what the data
    guarantee lets through. *)
Definition RefinedString (guarantee : string -> OnErrorOptions -> M string)
           (input : string) (options : OnErrorOptions) : M string :=
  guarantee input options.

(** ** [MakeFilepathOptions] *)

Module MakeFilepathOptions.
(** [Partial<MakeFilepathOptions>]: every field may be left out. *)
Record t : Type := mk
  { onError : option OnError;
    pathApi : option PathApi.t;
    base : option string }.

(** [{}] *)
Definition empty : t := mk None None None.
End MakeFilepathOptions.

(** ** [Filepath], as in src/v1/Filepath/Filepath.ts *)

Module Filepath_raw.

Record t : Type := mk
  { _value : string;
    _base : option string;
    _pathApi : PathApi.t }.

Definition valueOf (this : t) : string := _value this.
Definition base (this : t) : option string := _base this.
Definition pathApi (this : t) : PathApi.t := _pathApi this.

Section Host.
(** The [path] module of the host platform. *)
Variable path : PathApi.t.

Definition constructor (input : string) (options : MakeFilepathOptions.t)
  : M t :=
  let onError :=
    or_default (MakeFilepathOptions.onError options) THROW_THE_ERROR in
  let pathApi := or_default (MakeFilepathOptions.pathApi options) path in
  let base := MakeFilepathOptions.base options in
  value <- RefinedString mustBeFilepathData input (mkOnErrorOptions onError) ;;
  ret (mk value base pathApi).

Definition basename (this : t) (ext : option string) : M string :=
  call (basename_called (_value this) ext)
       (PathApi.basename (_pathApi this) (_value this) ext).

(** [makeFilepath(input, options, ...fnOpts)] *)
Definition makeFilepath (input : string) (options : MakeFilepathOptions.t)
           (fnOpts : list (t -> OnErrorOptions -> M t)) : M t :=
  let onError :=
    or_default (MakeFilepathOptions.onError options) THROW_THE_ERROR in
  let pathApi := or_default (MakeFilepathOptions.pathApi options) path in
  let base := MakeFilepathOptions.base options in
  made <- constructor input
            (MakeFilepathOptions.mk (Some onError) (Some pathApi) base) ;;
  applyFunctionalOptions made (mkOnErrorOptions onError) fnOpts.

End Host.

End Filepath_raw.

(** ** [Filepath], the class with the cached decomposition *)

Module Filepath.

Record t : Type := mk
  { _value : string;
    _base : option string;
    _pathApi : PathApi.t;
    _parts : option ParsedPath.t }.

Definition valueOf (this : t) : string := _value this.
Definition base (this : t) : option string := _base this.
Definition pathApi (this : t) : PathApi.t := _pathApi this.

Section Host.
(** The [path] module of the host platform. *)
Variable path : PathApi.t.

Definition constructor (input : string) (options : MakeFilepathOptions.t)
  : M t :=
  let onError :=
    or_default (MakeFilepathOptions.onError options) THROW_THE_ERROR in
  let pathApi := or_default (MakeFilepathOptions.pathApi options) path in
  let base := MakeFilepathOptions.base options in
  (* we normalise the given path *)
  normalised <- call (normalize_called input)
                     (PathApi.normalize pathApi input) ;;
  value <- RefinedString mustBeFilepathData normalised
                         (mkOnErrorOptions onError) ;;
  ret (mk value base pathApi None).

Definition basename (this : t) (ext : option string) : M string :=
  call (basename_called (_value this) ext)
       (PathApi.basename (_pathApi this) (_value this) ext).

Definition dirname (this : t) (options : MakeFilepathOptions.t) : M t :=
  let onError :=
    or_default (MakeFilepathOptions.onError options) THROW_THE_ERROR in
  let pathApi :=
    or_default (MakeFilepathOptions.pathApi options) (_pathApi this) in
  let base :=
    match MakeFilepathOptions.base options with
    | Some b => Some b
    | None => _base this
    end in
  parent <- call (dirname_called (_value this))
                 (PathApi.dirname (_pathApi this) (_value this)) ;;
  constructor parent
              (MakeFilepathOptions.mk (Some onError) (Some pathApi) base).

Definition extname (this : t) : M string :=
  call (extname_called (_value this))
       (PathApi.extname (_pathApi this) (_value this)).

Definition isAbsolute (this : t) : M bool :=
  call (isAbsolute_called (_value this))
       (PathApi.isAbsolute (_pathApi this) (_value this)).

Definition join (this : t) (paths : list string) : M t :=
  joined <- call (join_called (_value this :: paths))
                 (PathApi.join (_pathApi this) (_value this :: paths)) ;;
  constructor joined
              (MakeFilepathOptions.mk None (Some (_pathApi this))
                                      (_base this)).

(** [parse()] returns the decomposition and leaves it in [#_parts]; the
    second component is [this] after the call.  A [ParsedPath] is an
    object, so [this.#_parts || x] is [this.#_parts] once it is set. *)
Definition parse (this : t) : M (ParsedPath.t * t) :=
  retval <- match _parts this with
            | Some parts => ret parts
            | None => call (parse_called (_value this))
                           (PathApi.parse (_pathApi this) (_value this))
            end ;;
  let parts := match _parts this with
               | Some parts => Some parts
               | None => Some retval
               end in
  ret (retval, mk (_value this) (_base this) (_pathApi this) parts).

(** Modelled from the spec: [resolve] is declared in the API docs and
    its body is absent from the sources.  With no segments it resolves
    this value against its [base] (against the working directory alone
    when there is no [base]); the new Filepath carries [base] and
    [pathApi] forward. *)
Definition resolve (this : t) (paths : list string) : M t :=
  let args :=
    match paths, _base this with
    | [], Some b => [b; _value this]
    | _, _ => _value this :: paths
    end in
  resolved <- call (resolve_called args)
                   (PathApi.resolve (_pathApi this) args) ;;
  constructor resolved
              (MakeFilepathOptions.mk None (Some (_pathApi this))
                                      (_base this)).

(** [makeFilepath(input, options, ...fnOpts)], over this class. *)
Definition makeFilepath (input : string) (options : MakeFilepathOptions.t)
           (fnOpts : list (t -> OnErrorOptions -> M t)) : M t :=
  let onError :=
    or_default (MakeFilepathOptions.onError options) THROW_THE_ERROR in
  let pathApi := or_default (MakeFilepathOptions.pathApi options) path in
  let base := MakeFilepathOptions.base options in
  made <- constructor input
            (MakeFilepathOptions.mk (Some onError) (Some pathApi) base) ;;
  applyFunctionalOptions made (mkOnErrorOptions onError) fnOpts.

(** *** The life of one instance: a sequence of method calls on it *)

Inductive Method : Type :=
| call_basename (ext : option string)
| call_dirname (options : MakeFilepathOptions.t)
| call_extname
| call_isAbsolute
| call_join (paths : list string)
| call_parse
| call_resolve (paths : list string).

Inductive Result : Type :=
| a_string (s : string)
| a_boolean (b : bool)
| a_Filepath (f : t)
| a_ParsedPath (p : ParsedPath.t).

(** One method call on [this]: its result and [this] afterwards. *)
Definition invoke (m : Method) (this : t) : M (Result * t) :=
  match m with
  | call_basename ext => s <- basename this ext ;; ret (a_string s, this)
  | call_dirname options =>
      f <- dirname this options ;; ret (a_Filepath f, this)
  | call_extname => s <- extname this ;; ret (a_string s, this)
  | call_isAbsolute => b <- isAbsolute this ;; ret (a_boolean b, this)
  | call_join paths => f <- join this paths ;; ret (a_Filepath f, this)
  | call_parse =>
      r <- parse this ;; ret (a_ParsedPath (fst r), snd r)
  | call_resolve paths =>
      f <- resolve this paths ;; ret (a_Filepath f, this)
  end.

Fixpoint lifetime (ms : list Method) (this : t) : M (list Result * t) :=
  match ms with
  | [] => ret ([], this)
  | m :: rest =>
      r <- invoke m this ;;
      rs <- lifetime rest (snd r) ;;
      ret (fst r :: fst rs, snd rs)
  end.

End Host.

End Filepath.

(** ** The cache cell of an instance *)

Module Cache.
Import Filepath.

(** The cache cell is unset or holds the decomposition of [_value]. *)
Definition consistent (this : t) : Prop :=
  forall parts, _parts this = Some parts ->
                parts = PathApi.parse (_pathApi this) (_value this).

(** Calls to the algebra's [parse] made so far, plus the one that is
    still to come while the cache is unset. *)
Definition budget (this : t) (tr : Trace) : nat :=
  (parse_calls tr + match _parts this with None => 1 | Some _ => 0 end)%nat.

(** Same instance, later in its life. *)
Definition same_instance (this this' : t) : Prop :=
  _value this' = _value this
  /\ _base this' = _base this
  /\ _pathApi this' = _pathApi this.

End Cache.

(** The options [{ pathApi: path.posix }] and [{ pathApi: path.posix, base }]. *)
Definition with_posix (cwd : string) (base : option string)
  : MakeFilepathOptions.t :=
  MakeFilepathOptions.mk None (Some (Posix.posix cwd)) base.

(** ** Vocabulary for the properties of sequences of calls and of paths *)

Module Calls.

Definition is_call_parse (m : Filepath.Method) : bool :=
  match m with Filepath.call_parse => true | _ => false end.

(** Does the sequence of calls contain a [parse()]? *)
Definition has_parse (ms : list Filepath.Method) : bool :=
  existsb is_call_parse ms.

(** What each method asks of its path algebra, in order, as the tests read
    it from [calledList] and [paramList]: [dirname], [join] and [resolve]
    are followed by the [normalize] of the Filepath they construct, and
    [parse] asks nothing once the cache is set. *)
Definition call_list (this : Filepath.t) (m : Filepath.Method) : list Event :=
  let v := Filepath._value this in
  let api := Filepath._pathApi this in
  match m with
  | Filepath.call_basename ext => [basename_called v ext]
  | Filepath.call_dirname _ =>
      [dirname_called v; normalize_called (PathApi.dirname api v)]
  | Filepath.call_extname => [extname_called v]
  | Filepath.call_isAbsolute => [isAbsolute_called v]
  | Filepath.call_join paths =>
      [join_called (v :: paths);
       normalize_called (PathApi.join api (v :: paths))]
  | Filepath.call_parse =>
      match Filepath._parts this with
      | Some _ => []
      | None => [parse_called v]
      end
  | Filepath.call_resolve paths =>
      let args := match paths, Filepath._base this with
                  | [], Some b => [b; v]
                  | _, _ => v :: paths
                  end in
      [resolve_called args; normalize_called (PathApi.resolve api args)]
  end.

(** [this] after the method has run: only [parse()] writes to it. *)
Definition after (this : Filepath.t) (m : Filepath.Method) : Filepath.t :=
  match m with
  | Filepath.call_parse =>
      Filepath.mk (Filepath._value this) (Filepath._base this)
        (Filepath._pathApi this)
        (Some match Filepath._parts this with
              | Some parts => parts
              | None => PathApi.parse (Filepath._pathApi this)
                                      (Filepath._value this)
              end)
  | _ => this
  end.

Fixpoint final (this : Filepath.t) (ms : list Filepath.Method) : Filepath.t :=
  match ms with
  | [] => this
  | m :: rest => final (after this m) rest
  end.

(** The calls made to the algebra over a sequence of method calls. *)
Fixpoint history (this : Filepath.t) (ms : list Filepath.Method) : list Event :=
  match ms with
  | [] => []
  | m :: rest => (call_list this m ++ history (after this m) rest)%list
  end.

End Calls.

Module Lead.
Import JS.

(** The string does not begin with a separator. *)
Definition relative (s : string) : Prop :=
  is_code (charCodeAt s 0) Posix.CHAR_FORWARD_SLASH = false.

(** Loop invariant of [normalizeString] before index [i]: the result so far
    does not begin with a separator, and the segment being read, if it has
    begun, begins with a character that is not a separator. *)
Definition inv (path : string) (i : Z) (st : Posix.NState) : Prop :=
  relative (Posix.res st)
  /\ -1 <= Posix.lastSlash st < i
  /\ (Posix.lastSlash st + 1 < i ->
      exists c, charCodeAt path (Posix.lastSlash st + 1) = Some c
                /\ Ascii.eqb c Posix.CHAR_FORWARD_SLASH = false).

End Lead.

(** * Properties *)

(** ** The trace *)

Lemma parse_calls_snoc (t : Trace) (e : Event) :
  parse_calls (t ++ [e])%list =
  (parse_calls t + (if is_parse_called e then 1 else 0))%nat.
Proof.
  unfold parse_calls. rewrite filter_app, length_app. simpl.
  destruct (is_parse_called e); reflexivity.
Qed.

Lemma onError_calls_snoc (t : Trace) (e : Event) :
  onError_calls (t ++ [e])%list =
  (onError_calls t + (if is_onError_called e then 1 else 0))%nat.
Proof.
  unfold onError_calls. rewrite filter_app, length_app. simpl.
  destruct (is_onError_called e); reflexivity.
Qed.

(** ** Construction *)

Lemma validateFilepathData_accepts (input : string) (o : TypeValidatorOptions) :
  validateFilepathData input o = inr input.
Proof. reflexivity. Qed.

Lemma mustBeFilepathData_returns (input : string) (o : OnErrorOptions) (t : Trace) :
  mustBeFilepathData input o t = (Returns input, t).
Proof. reflexivity. Qed.

Lemma raw_constructor_eq (path : PathApi.t) (input : string)
      (o : MakeFilepathOptions.t) (t : Trace) :
  Filepath_raw.constructor path input o t =
  (Returns (Filepath_raw.mk input (MakeFilepathOptions.base o)
              (or_default (MakeFilepathOptions.pathApi o) path)),
   t).
Proof. reflexivity. Qed.

Lemma constructor_eq (path : PathApi.t) (input : string)
      (o : MakeFilepathOptions.t) (t : Trace) :
  Filepath.constructor path input o t =
  (let api := or_default (MakeFilepathOptions.pathApi o) path in
   (Returns (Filepath.mk (PathApi.normalize api input)
               (MakeFilepathOptions.base o) api None),
    (t ++ [normalize_called input])%list)).
Proof. reflexivity. Qed.

Lemma join_eq (path : PathApi.t) (this : Filepath.t) (paths : list string)
      (tr : Trace) :
  Filepath.join path this paths tr =
  (let api := Filepath._pathApi this in
   let joined := PathApi.join api (Filepath._value this :: paths) in
   (Returns (Filepath.mk (PathApi.normalize api joined)
               (Filepath._base this) api None),
    ((tr ++ [join_called (Filepath._value this :: paths)])
       ++ [normalize_called joined])%list)).
Proof. reflexivity. Qed.

(** ** The POSIX algebra *)

Module PosixFacts.
Import JS Posix.

Lemma len_nonzero (s : string) : (len s =? 0) = false -> s <> "".
Proof. intros H ->. discriminate H. Qed.

Lemma append_nonempty (s u : string) : s <> "" -> (s ++ u)%string <> "".
Proof. destruct s; [congruence | simpl; discriminate]. Qed.

(** [normalize] never returns the empty string. *)
Lemma normalize_nonempty (p : string) : normalize p <> "".
Proof.
  unfold normalize.
  destruct (len p =? 0); [discriminate |].
  cbv zeta.
  destruct (len (normalizeString p _) =? 0) eqn:E.
  - destruct (is_code (charCodeAt p 0) _); [discriminate |].
    destruct (is_code (charCodeAt p (len p - 1)) _); discriminate.
  - apply len_nonzero in E.
    destruct (is_code (charCodeAt p 0) _); [simpl; discriminate |].
    destruct (is_code (charCodeAt p (len p - 1)) _);
      [apply append_nonempty |]; exact E.
Qed.

Lemma isAbsolute_cons (s : string) : isAbsolute (String "/" s) = true.
Proof.
  unfold isAbsolute, len. simpl String.length.
  rewrite Nat2Z.inj_succ.
  replace (Z.succ (Z.of_nat (String.length s)) >? 0) with true
    by (symmetry; apply Z.gtb_lt; lia).
  reflexivity.
Qed.

Lemma isAbsolute_inv (s : string) :
  isAbsolute s = true -> exists s', s = String "/" s'.
Proof.
  unfold isAbsolute. destruct s as [|a s]; [discriminate |].
  intros H. apply andb_prop in H. destruct H as [_ H].
  unfold charCodeAt in H. simpl in H.
  apply Ascii.eqb_eq in H. subst a. now exists s.
Qed.

(** [normalize] keeps an absolute path absolute. *)
Lemma normalize_absolute (p : string) :
  isAbsolute p = true -> isAbsolute (normalize p) = true.
Proof.
  intros H. destruct (isAbsolute_inv _ H) as [s ->].
  unfold normalize.
  destruct (len (String "/" s) =? 0) eqn:E; [discriminate E |].
  cbv zeta.
  replace (is_code (charCodeAt (String "/" s) 0) CHAR_FORWARD_SLASH)
    with true by reflexivity.
  destruct (len (normalizeString _ _) =? 0); [reflexivity |].
  apply isAbsolute_cons.
Qed.

(** With an absolute working directory the loop of [resolve] always ends
    on an absolute prefix. *)
Lemma resolve_loop_absolute (cwd : string) :
  isAbsolute cwd = true ->
  forall (paths : list string) (r : string),
    snd (resolve_loop (paths ++ [cwd]) r) = true.
Proof.
  intros H. destruct (isAbsolute_inv _ H) as [s ->].
  induction paths as [|p paths IH]; intros r.
  - simpl. destruct (len (String "/" s) =? 0) eqn:E; [discriminate E |].
    reflexivity.
  - simpl. destruct (len p =? 0); [apply IH |].
    destruct (is_code (charCodeAt p 0) CHAR_FORWARD_SLASH);
      [reflexivity | apply IH].
Qed.

(** [resolve] returns an absolute path when the working directory is one. *)
Lemma resolve_absolute (cwd : string) (args : list string) :
  isAbsolute cwd = true -> isAbsolute (resolve cwd args) = true.
Proof.
  intros H. unfold resolve.
  pose proof (resolve_loop_absolute cwd H (rev args) "") as L.
  destruct (resolve_loop (rev args ++ [cwd]) "") as [rp ra].
  simpl in L. subst ra. apply isAbsolute_cons.
Qed.

(** The expectations of the repository's tests that run on [path.posix]. *)

Example test_normalises_the_given_path :
  normalize "this/hasnot/../has/been/./normalised"
  = "this/has/been/normalised".
Proof. vm_compute. reflexivity. Qed.

Example test_dirname_returns_the_parent : dirname "/tmp" = "/".
Proof. vm_compute. reflexivity. Qed.

Example test_extname_returns_the_extension :
  extname "example.ts" = ".ts" /\ extname "example" = "".
Proof. split; vm_compute; reflexivity. Qed.

Example test_isAbsolute :
  isAbsolute "/tmp" = true /\ isAbsolute "./tmp" = false.
Proof. split; reflexivity. Qed.

Example test_join_appends_the_given_paths :
  join ["/tmp/this/is/an/example"; ".."; ".."; "another/example"]
  = "/tmp/this/is/another/example".
Proof. vm_compute. reflexivity. Qed.

Example test_parse_breaks_down_the_path :
  parse "/tmp/example/file.ts"
  = ParsedPath.mk "/" "/tmp/example" "file.ts" ".ts" "file".
Proof. vm_compute. reflexivity. Qed.

(** Zero-length segments are ignored by [join]. *)
Lemma join_loop_empties (segments : list string) (joined : option string) :
  Forall (fun s => s = "") segments -> join_loop segments joined = joined.
Proof.
  induction 1 as [|s l Hs _ IH]; [reflexivity |].
  subst s. simpl. exact IH.
Qed.

Lemma join_value_empties (v : string) (segments : list string) :
  Forall (fun s => s = "") segments ->
  join (v :: segments) = if len v >? 0 then normalize v else ".".
Proof.
  intros H. unfold join. simpl join_loop.
  rewrite (join_loop_empties _ H).
  destruct (len v >? 0); reflexivity.
Qed.

(** The result of [join] is never empty. *)
Lemma join_nonempty (args : list string) : join args <> "".
Proof.
  unfold join. destruct args as [|a l]; [discriminate |].
  destruct (join_loop (a :: l) None); [apply normalize_nonempty | discriminate].
Qed.

End PosixFacts.

(** ** The cached decomposition *)

Module CacheFacts.
Import Filepath Cache.

Lemma parse_spec (this : t) (tr : Trace) :
  consistent this ->
  exists this' tr',
    parse this tr =
    (Returns (PathApi.parse (_pathApi this) (_value this), this'), tr')
    /\ same_instance this this'
    /\ consistent this'
    /\ _parts this' =
       Some (PathApi.parse (_pathApi this) (_value this))
    /\ budget this' tr' = budget this tr.
Proof.
  intros C. destruct this as [v b api [parts|]]; unfold consistent in C;
    simpl in C.
  - pose proof (C parts eq_refl) as Hp. subst parts.
    eexists. exists tr.
    split; [reflexivity |].
    repeat split.
    intros p E. simpl in E. now injection E as <-.
  - eexists. exists (tr ++ [parse_called v])%list.
    split; [reflexivity |].
    repeat split.
    + intros p E. simpl in E. now injection E as <-.
    + unfold budget. rewrite parse_calls_snoc. simpl. lia.
Qed.

Lemma invoke_spec (path : PathApi.t) (m : Method) (this : t) (tr : Trace) :
  consistent this ->
  exists r this' tr',
    invoke path m this tr = (Returns (r, this'), tr')
    /\ same_instance this this'
    /\ consistent this'
    /\ budget this' tr' = budget this tr
    /\ (forall p, r = a_ParsedPath p ->
                  p = PathApi.parse (_pathApi this) (_value this)).
Proof.
  intros C.
  destruct m as [ext | o | | | paths | | paths].
  6: {
    destruct (parse_spec tr C) as (this' & tr' & E & I & C' & _ & B).
    exists (a_ParsedPath (PathApi.parse (_pathApi this) (_value this))),
           this', tr'.
    split; [| repeat split; try assumption; try apply I].
    - unfold invoke, bind. rewrite E. reflexivity.
    - intros p Ep. now injection Ep as <-.
  }
  all: eexists; exists this; eexists;
    (split; [reflexivity |]);
    (split; [repeat split |]);
    (split; [exact C |]);
    (split; [| intros p Ep; discriminate Ep]);
    unfold budget; repeat rewrite parse_calls_snoc; simpl; lia.
Qed.

Lemma lifetime_spec (path : PathApi.t) (ms : list Method) :
  forall (this : t) (tr : Trace),
    consistent this ->
    exists rs this' tr',
      lifetime path ms this tr = (Returns (rs, this'), tr')
      /\ same_instance this this'
      /\ consistent this'
      /\ budget this' tr' = budget this tr
      /\ (forall p, In (a_ParsedPath p) rs ->
                    p = PathApi.parse (_pathApi this) (_value this)).
Proof.
  induction ms as [|m ms IH]; intros this tr C.
  - exists [], this, tr. repeat split; try assumption.
    intros p [].
  - destruct (invoke_spec path m tr C) as (r & this1 & tr1 & E1 & I1 & C1 & B1 & P1).
    destruct (IH this1 tr1 C1) as (rs & this2 & tr2 & E2 & I2 & C2 & B2 & P2).
    exists (r :: rs), this2, tr2.
    destruct I1 as (V1 & Ba1 & A1), I2 as (V2 & Ba2 & A2).
    split; [| split; [| split; [| split]]].
    + simpl. unfold bind at 1. rewrite E1. simpl.
      unfold bind at 1. rewrite E2. reflexivity.
    + repeat split; congruence.
    + exact C2.
    + congruence.
    + intros p [Hp | Hp].
      * now apply P1.
      * rewrite <- V1, <- A1. now apply P2.
Qed.

End CacheFacts.

(** ** Any algebra whose [normalize] never returns the empty string *)

Section WellBehavedAlgebra.
Variable api : PathApi.t.
Hypothesis normalize_never_empty : forall s, PathApi.normalize api s <> "".

Lemma constructed_value_nonempty (path : PathApi.t) (input : string)
      (b : option string) (tr : Trace) :
  exists f tr',
    Filepath.constructor path input
      (MakeFilepathOptions.mk None (Some api) b) tr = (Returns f, tr')
    /\ Filepath.valueOf f <> "".
Proof.
  do 2 eexists. rewrite constructor_eq. cbv zeta.
  split; [reflexivity | apply normalize_never_empty].
Qed.

Lemma joined_value_nonempty (path : PathApi.t) (this : Filepath.t)
      (paths : list string) (tr : Trace) :
  Filepath.pathApi this = api ->
  exists q tr',
    Filepath.join path this paths tr = (Returns q, tr')
    /\ Filepath.valueOf q <> "".
Proof.
  intros E. do 2 eexists. rewrite join_eq. cbv zeta.
  split; [reflexivity |].
  unfold Filepath.pathApi in E. rewrite E. apply normalize_never_empty.
Qed.

End WellBehavedAlgebra.

(** ** Claims *)

(** C1, as stated, at the class of src/v1/Filepath/Filepath.ts: constructed
    from ["a/../b"] with the POSIX algebra, its value is ["a/../b"], which is
    not [normalize("a/../b") = "b"]. *)
Lemma raw_constructor_does_not_normalize :
  exists f tr,
    Filepath_raw.constructor (Posix.posix "/") "a/../b"
                             MakeFilepathOptions.empty [] = (Returns f, tr)
    /\ Filepath_raw.valueOf f = "a/../b"
    /\ PathApi.normalize (Filepath_raw.pathApi f) "a/../b" = "b"
    /\ Filepath_raw.valueOf f
       <> PathApi.normalize (Filepath_raw.pathApi f) "a/../b".
Proof.
  eexists. eexists. split; [reflexivity |].
  split; [reflexivity |]. split; [vm_compute; reflexivity |].
  vm_compute. discriminate.
Qed.

(** C1 (amended): for every input string and bound path algebra, the class
    whose constructor normalises (the one that has [dirname], [join] and
    [parse]) calls the algebra's [normalize] on the input and stores the
    answer, so its value is [normalize(input)]; the class of
    src/v1/Filepath/Filepath.ts stores the input itself. *)
Theorem constructor_value (path : PathApi.t) (input : string)
        (o : MakeFilepathOptions.t) (tr : Trace) :
  (exists f,
      Filepath.constructor path input o tr =
      (Returns f, (tr ++ [normalize_called input])%list)
      /\ Filepath.pathApi f = or_default (MakeFilepathOptions.pathApi o) path
      /\ Filepath.valueOf f = PathApi.normalize (Filepath.pathApi f) input)
  /\ (exists f,
         Filepath_raw.constructor path input o tr = (Returns f, tr)
         /\ Filepath_raw.pathApi f =
            or_default (MakeFilepathOptions.pathApi o) path
         /\ Filepath_raw.valueOf f = input).
Proof.
  split.
  - eexists. rewrite constructor_eq. cbv zeta.
    split; [reflexivity |]. split; reflexivity.
  - eexists. rewrite raw_constructor_eq.
    split; [reflexivity |]. split; reflexivity.
Qed.

(** C2: the two classes differ observably: constructed from ["a/../b"] with
    the POSIX algebra, the one that stores its input has value ["a/../b"] and
    the one that normalises has value ["b"]. *)
Theorem variants_differ (cwd : string) (path : PathApi.t) (tr : Trace) :
  exists f_raw tr_raw f tr',
    Filepath_raw.constructor path "a/../b" (with_posix cwd None) tr =
    (Returns f_raw, tr_raw)
    /\ Filepath.constructor path "a/../b" (with_posix cwd None) tr =
       (Returns f, tr')
    /\ Filepath_raw.valueOf f_raw = "a/../b"
    /\ Filepath.valueOf f = "b"
    /\ Filepath_raw.valueOf f_raw <> Filepath.valueOf f.
Proof.
  do 4 eexists.
  rewrite raw_constructor_eq, constructor_eq. cbv zeta.
  split; [reflexivity |]. split; [reflexivity |].
  split; [reflexivity |]. split; [vm_compute; reflexivity |].
  vm_compute. discriminate.
Qed.

(** C3: the validator returns every input unchanged and never an error, so
    the data guarantee never reaches [onError], and construction, with any
    options, returns a Filepath without invoking the handler. *)
Theorem onError_is_unreachable :
  (forall input o, validateFilepathData input o = inr input)
  /\ (forall input o tr, mustBeFilepathData input o tr = (Returns input, tr))
  /\ (forall path input o tr,
         exists f tr',
           Filepath.constructor path input o tr = (Returns f, tr')
           /\ onError_calls tr' = onError_calls tr)
  /\ (forall path input o tr,
         exists f tr',
           Filepath_raw.constructor path input o tr = (Returns f, tr')
           /\ onError_calls tr' = onError_calls tr).
Proof.
  split; [reflexivity |]. split; [reflexivity |]. split.
  - intros path input o tr. do 2 eexists.
    rewrite constructor_eq. cbv zeta. split; [reflexivity |].
    rewrite onError_calls_snoc. simpl. lia.
  - intros path input o tr. do 2 eexists.
    rewrite raw_constructor_eq. split; reflexivity.
Qed.

(** C4: [join] and [dirname] (called with no overrides) return a Filepath
    with the base and the path algebra of the Filepath they are called on. *)
Theorem derived_keep_base_and_pathApi (path : PathApi.t) (this : Filepath.t)
        (paths : list string) (tr : Trace) :
  (exists q tr',
      Filepath.join path this paths tr = (Returns q, tr')
      /\ Filepath.base q = Filepath.base this
      /\ Filepath.pathApi q = Filepath.pathApi this)
  /\ (exists q tr',
         Filepath.dirname path this MakeFilepathOptions.empty tr =
         (Returns q, tr')
         /\ Filepath.base q = Filepath.base this
         /\ Filepath.pathApi q = Filepath.pathApi this).
Proof.
  split; do 2 eexists; (split; [reflexivity |]); split; reflexivity.
Qed.

(** C5: from construction on and through any sequence of method calls on
    the instance, every [parse()] returns the algebra's decomposition of the
    instance's value (so two calls return equal results), the algebra's
    [parse] is called at most once, and the cache, once set, holds the
    decomposition of the value, which no method changes. *)
Theorem parse_is_computed_once (path : PathApi.t) (input : string)
        (o : MakeFilepathOptions.t) (ms : list Filepath.Method) (tr0 : Trace) :
  exists this tr1 rs this' tr2,
    Filepath.constructor path input o tr0 = (Returns this, tr1)
    /\ Filepath.lifetime path ms this tr1 = (Returns (rs, this'), tr2)
    /\ (forall p, In (Filepath.a_ParsedPath p) rs ->
                  p = PathApi.parse (Filepath.pathApi this)
                                    (Filepath.valueOf this))
    /\ (parse_calls tr2 <= parse_calls tr0 + 1)%nat
    /\ Filepath.valueOf this' = Filepath.valueOf this
    /\ Filepath.pathApi this' = Filepath.pathApi this
    /\ (forall parts, Filepath._parts this' = Some parts ->
                      parts = PathApi.parse (Filepath.pathApi this')
                                            (Filepath.valueOf this'))
    /\ exists r p1 tr3 p2 tr4,
        Filepath.parse this' tr2 = (Returns (r, p1), tr3)
        /\ Filepath.parse p1 tr3 = (Returns (r, p2), tr4)
        /\ (parse_calls tr4 <= parse_calls tr0 + 1)%nat.
Proof.
  pose (api := or_default (MakeFilepathOptions.pathApi o) path).
  pose (this := Filepath.mk (PathApi.normalize api input)
                            (MakeFilepathOptions.base o) api None).
  assert (C0 : Cache.consistent this) by (intros p E; discriminate E).
  destruct (CacheFacts.lifetime_spec path ms (tr0 ++ [normalize_called input])%list C0)
    as (rs & this' & tr2 & E & (V & _ & A) & C & B & P).
  destruct (CacheFacts.parse_spec tr2 C) as (p1 & tr3 & E1 & (V1 & _ & A1) & C1 & S1 & B1).
  destruct (CacheFacts.parse_spec tr3 C1) as (p2 & tr4 & E2 & _ & _ & S2 & B2).
  assert (B0 : Cache.budget this (tr0 ++ [normalize_called input])%list
               = (parse_calls tr0 + 1)%nat).
  { unfold Cache.budget. rewrite parse_calls_snoc. simpl. lia. }
  exists this, (tr0 ++ [normalize_called input])%list, rs, this', tr2.
  split; [apply constructor_eq |]. split; [exact E |].
  split; [exact P |].
  split; [unfold Cache.budget in *; lia |].
  split; [exact V |]. split; [exact A |]. split; [exact C |].
  exists (PathApi.parse (Filepath._pathApi this') (Filepath._value this')),
         p1, tr3, p2, tr4.
  split; [exact E1 |]. split.
  - rewrite E2, V1, A1. reflexivity.
  - unfold Cache.budget in *. lia.
Qed.

(** C6: with the POSIX algebra, the value of [this.join(...paths)] is never
    the empty string, whatever this value and the segments are; when every
    segment is zero-length and this value is the current directory (or
    zero-length itself), the result is ["."]. *)
Theorem join_never_empty (cwd : string) (path : PathApi.t) (v : string)
        (b : option string) (parts : option ParsedPath.t)
        (paths : list string) (tr : Trace) :
  exists q tr',
    Filepath.join path (Filepath.mk v b (Posix.posix cwd) parts) paths tr =
    (Returns q, tr')
    /\ Filepath.valueOf q <> ""
    /\ (Forall (fun s => s = "") paths -> v = "" \/ v = "." ->
        Filepath.valueOf q = ".").
Proof.
  do 2 eexists. rewrite join_eq. cbv zeta. split; [reflexivity |].
  unfold Filepath.valueOf.
  cbn [Filepath._value Filepath._pathApi Posix.posix PathApi.normalize
       PathApi.join].
  split; [apply PosixFacts.normalize_nonempty |].
  intros E [-> | ->]; rewrite (PosixFacts.join_value_empties _ E);
    vm_compute; reflexivity.
Qed.

(** Segments that cancel this value also leave the current directory:
    [new Filepath("a").join("..")] has value ["."]. *)
Example join_back_to_current_directory (cwd : string) (path : PathApi.t) :
  exists f tr q tr',
    Filepath.constructor path "a" (with_posix cwd None) [] = (Returns f, tr)
    /\ Filepath.join path f [".."] tr = (Returns q, tr')
    /\ Filepath.valueOf q = ".".
Proof.
  do 4 eexists. split; [reflexivity |]. split; [reflexivity |].
  vm_compute. reflexivity.
Qed.

(** C7: the Filepath constructed from ["example.ts"] (either class, POSIX
    algebra) has [basename(".ts") = "example"] and
    [basename(".php") = "example.ts"]. *)
Theorem basename_strips_matching_suffix (cwd : string) (path : PathApi.t)
        (tr : Trace) :
  (exists f tr',
      Filepath.constructor path "example.ts" (with_posix cwd None) tr =
      (Returns f, tr')
      /\ (forall u, fst (Filepath.basename f (Some ".ts") u)
                    = Returns "example")
      /\ (forall u, fst (Filepath.basename f (Some ".php") u)
                    = Returns "example.ts"))
  /\ (exists f tr',
         Filepath_raw.constructor path "example.ts" (with_posix cwd None) tr =
         (Returns f, tr')
         /\ (forall u, fst (Filepath_raw.basename f (Some ".ts") u)
                       = Returns "example")
         /\ (forall u, fst (Filepath_raw.basename f (Some ".php") u)
                       = Returns "example.ts")).
Proof.
  split; do 2 eexists; (split; [reflexivity |]);
    split; intros u; vm_compute; reflexivity.
Qed.

(** C8: the Filepath constructed from [".bashrc"] (POSIX algebra) has
    [extname() = ""], and the one constructed from ["a.b.c"] has
    [extname() = ".c"]. *)
Theorem extname_of_dotfile_and_last_suffix (cwd : string) (path : PathApi.t)
        (tr : Trace) :
  (exists f tr',
      Filepath.constructor path ".bashrc" (with_posix cwd None) tr =
      (Returns f, tr')
      /\ forall u, fst (Filepath.extname f u) = Returns "")
  /\ (exists f tr',
         Filepath.constructor path "a.b.c" (with_posix cwd None) tr =
         (Returns f, tr')
         /\ forall u, fst (Filepath.extname f u) = Returns ".c").
Proof.
  split; do 2 eexists; (split; [reflexivity |]);
    intros u; vm_compute; reflexivity.
Qed.

(** C9: with the POSIX algebra and an absolute working directory,
    [this.resolve()] with no segments asks the algebra to resolve this value
    against this base (this value alone, hence against the working
    directory, when there is no base), and the Filepath it returns is
    absolute and carries the base and the algebra forward. *)
Theorem resolve_without_segments (cwd : string) (path : PathApi.t)
        (v : string) (b : option string) (parts : option ParsedPath.t)
        (tr : Trace) :
  Posix.isAbsolute cwd = true ->
  exists q tr',
    Filepath.resolve path (Filepath.mk v b (Posix.posix cwd) parts) [] tr =
    (Returns q, tr')
    /\ Filepath.valueOf q =
       Posix.normalize
         (Posix.resolve cwd match b with
                            | Some anchor => [anchor; v]
                            | None => [v]
                            end)
    /\ Posix.isAbsolute (Filepath.valueOf q) = true
    /\ Filepath.base q = b
    /\ Filepath.pathApi q = Posix.posix cwd.
Proof.
  intros H. do 2 eexists. split; [reflexivity |].
  simpl. split; [destruct b; reflexivity |].
  split; [| split; reflexivity].
  apply PosixFacts.normalize_absolute, PosixFacts.resolve_absolute, H.
Qed.

(** [resolve()] on ["docs/readme.md"] with base ["/srv/project"], in a process
    whose working directory is ["/home/user"]. *)
Lemma resolve_without_segments_witness :
  Posix.isAbsolute "/home/user" = true
  /\ exists q tr',
      Filepath.resolve (Posix.posix "/home/user")
        (Filepath.mk "docs/readme.md" (Some "/srv/project")
                     (Posix.posix "/home/user") None) [] [] =
      (Returns q, tr')
      /\ Filepath.valueOf q =
         Posix.normalize
           (Posix.resolve "/home/user" ["/srv/project"; "docs/readme.md"])
      /\ Posix.isAbsolute (Filepath.valueOf q) = true
      /\ Filepath.base q = Some "/srv/project"
      /\ Filepath.pathApi q = Posix.posix "/home/user".
Proof.
  split; [reflexivity |].
  apply (resolve_without_segments "/home/user" (Posix.posix "/home/user")
           "docs/readme.md" (Some "/srv/project") None []).
  reflexivity.
Defined.

(** C10: with no functional options, [makeFilepath(input, options)] is
    [new Filepath(input, options)]: the same computation, returning the same
    value, base and path algebra; this holds over the class of
    src/v1/Filepath/Filepath.ts and over the class that normalises. *)
Theorem makeFilepath_is_constructor (path : PathApi.t) (input : string)
        (o : MakeFilepathOptions.t) (tr : Trace) :
  (Filepath_raw.makeFilepath path input o [] tr =
   Filepath_raw.constructor path input o tr
   /\ exists f tr',
       Filepath_raw.makeFilepath path input o [] tr = (Returns f, tr')
       /\ Filepath_raw.constructor path input o tr = (Returns f, tr')
       /\ Filepath_raw.valueOf f = input
       /\ Filepath_raw.base f = MakeFilepathOptions.base o
       /\ Filepath_raw.pathApi f =
          or_default (MakeFilepathOptions.pathApi o) path)
  /\ (Filepath.makeFilepath path input o [] tr =
      Filepath.constructor path input o tr
      /\ exists f tr',
          Filepath.makeFilepath path input o [] tr = (Returns f, tr')
          /\ Filepath.constructor path input o tr = (Returns f, tr')
          /\ Filepath.base f = MakeFilepathOptions.base o
          /\ Filepath.pathApi f =
             or_default (MakeFilepathOptions.pathApi o) path).
Proof.
  split; (split; [reflexivity |]); do 2 eexists; repeat split.
Qed.

(** * Further properties *)

(** ** Leading separators in the POSIX algebra *)

Module LeadFacts.
Import JS Posix Lead.

Lemma get_in_range (s : string) :
  forall n, (n < String.length s)%nat -> exists a, String.get n s = Some a.
Proof.
  induction s as [|a s IH]; intros n H; simpl in H; [lia |].
  destruct n as [|n]; simpl; [now exists a | apply IH; lia].
Qed.

Lemma charCodeAt_in_range (s : string) (i : Z) :
  0 <= i < len s -> exists a, charCodeAt s i = Some a.
Proof.
  intros H. unfold charCodeAt.
  replace (i <? 0) with false by (symmetry; apply Z.ltb_ge; lia).
  apply get_in_range. unfold len in H. lia.
Qed.

Lemma charCodeAt_slice (s : string) (a b : Z) :
  0 <= a -> a < b -> a < len s ->
  charCodeAt (slice s a b) 0 = charCodeAt s a.
Proof.
  intros Ha Hab Hl. unfold slice, clamp.
  replace (a <? 0) with false by (symmetry; apply Z.ltb_ge; lia).
  replace (b <? 0) with false by (symmetry; apply Z.ltb_ge; lia).
  replace (Z.min a (len s) <? Z.min b (len s)) with true
    by (symmetry; apply Z.ltb_lt; lia).
  unfold charCodeAt.
  replace (a <? 0) with false by (symmetry; apply Z.ltb_ge; lia).
  change (0 <? 0) with false. cbv iota.
  rewrite substring_correct1 by lia.
  simpl. f_equal. lia.
Qed.

Lemma relative_empty : relative "".
Proof. reflexivity. Qed.

Lemma relative_slice_prefix (r : string) (k : Z) :
  relative r -> relative (slice r 0 k).
Proof.
  intros H. unfold relative, slice.
  set (from := clamp (len r) 0). set (to := clamp (len r) k).
  assert (E : from = 0).
  { unfold from, clamp. change (0 <? 0) with false. cbv iota.
    unfold len. lia. }
  destruct (from <? to) eqn:F; [| reflexivity].
  apply Z.ltb_lt in F.
  unfold charCodeAt. change (0 <? 0) with false. cbv iota.
  rewrite substring_correct1 by lia.
  rewrite E. exact H.
Qed.

Lemma charCodeAt_append (r u : string) :
  r <> "" -> charCodeAt (r ++ u) 0 = charCodeAt r 0.
Proof. destruct r; [congruence | reflexivity]. Qed.

Lemma len_positive (r : string) : (len r >? 0) = true -> r <> "".
Proof. intros H ->. discriminate H. Qed.

Lemma relative_append (r u : string) :
  (len r >? 0) = true -> relative r -> relative (r ++ u).
Proof.
  intros L H. unfold relative. rewrite charCodeAt_append; [exact H |].
  now apply len_positive.
Qed.

Lemma dotdot_inv (path : string) (allowAboveRoot : bool) (i : Z) (c : ascii)
      (st : NState) :
  relative (res st) ->
  relative (res (dotdot allowAboveRoot i c st))
  /\ lastSlash (dotdot allowAboveRoot i c st) = i.
Proof.
  intros R. unfold dotdot.
  assert (A : relative
                (res (if allowAboveRoot
                      then mkN (if len (res st) >? 0
                                then res st ++ "/.." else "..") 2 i 0 c
                      else mkN (res st) (lastSegmentLength st) i 0 c))
              /\ lastSlash (if allowAboveRoot
                            then mkN (if len (res st) >? 0
                                      then res st ++ "/.." else "..") 2 i 0 c
                            else mkN (res st) (lastSegmentLength st) i 0 c)
                 = i).
  { destruct allowAboveRoot; simpl; [| now split].
    split; [| reflexivity].
    destruct (len (res st) >? 0) eqn:L; [now apply relative_append |].
    reflexivity. }
  cbv zeta.
  destruct (_ || _ || _ || _); [| exact A].
  destruct (len (res st) >? 2).
  - destruct (lastIndexOf (res st) CHAR_FORWARD_SLASH =? -1); simpl.
    + split; [apply relative_empty | reflexivity].
    + split; [now apply relative_slice_prefix | reflexivity].
  - destruct (negb (len (res st) =? 0)); [| exact A].
    simpl. split; [apply relative_empty | reflexivity].
Qed.

(** What the loop does with the character [c] read at index [i] (the
    closing separator at [i = path.length]) keeps the invariant. *)
Lemma after_char (path : string) (allowAboveRoot : bool) (i : Z) (c : ascii)
      (st : NState) :
  inv path i st ->
  0 <= i <= len path ->
  (isPosixPathSeparator c = false -> charCodeAt path i = Some c) ->
  forall st',
    (if isPosixPathSeparator c then
       if (lastSlash st =? i - 1) || (dots st =? 1) then
         Continue (mkN (res st) (lastSegmentLength st) i 0 c)
       else if dots st =? 2 then
         Continue (dotdot allowAboveRoot i c st)
       else
         let seg := slice path (lastSlash st + 1) i in
         Continue (mkN (if len (res st) >? 0
                        then res st ++ "/" ++ seg
                        else seg)
                       (i - lastSlash st - 1) i 0 c)
     else if Ascii.eqb c CHAR_DOT && negb (dots st =? -1) then
       Continue (mkN (res st) (lastSegmentLength st) (lastSlash st)
                     (dots st + 1) c)
     else
       Continue (mkN (res st) (lastSegmentLength st) (lastSlash st) (-1) c))
    = Continue st' ->
    inv path (i + 1) st'.
Proof.
  intros (R & L & S) Hi Hc st' E.
  assert (fresh : forall r' n d,
             relative r' -> inv path (i + 1) (mkN r' n i d c)).
  { intros r' n d R'. split; [exact R' |]. simpl. split; [lia |]. lia. }
  destruct (isPosixPathSeparator c) eqn:Sep.
  - destruct ((lastSlash st =? i - 1) || (dots st =? 1)) eqn:O.
    + injection E as <-. now apply fresh.
    + apply orb_false_elim in O. destruct O as [O _].
      apply Z.eqb_neq in O.
      destruct (dots st =? 2).
      * injection E as <-.
        destruct (@dotdot_inv path allowAboveRoot i c st R) as [R' L'].
        split; [exact R' |]. rewrite L'. split; lia.
      * cbv zeta in E. injection E as <-. apply fresh.
        destruct S as (c0 & G & N); [lia |].
        assert (Q : relative (slice path (lastSlash st + 1) i)).
        { unfold relative. rewrite charCodeAt_slice by lia.
          rewrite G. exact N. }
        destruct (len (res st) >? 0) eqn:P; [now apply relative_append | exact Q].
  - assert (keep : forall n d,
               inv path (i + 1) (mkN (res st) n (lastSlash st) d c)).
    { intros n d. split; [exact R |]. simpl. split; [lia |].
      intros H. destruct (Z.eq_dec (lastSlash st + 1) i) as [J | J].
      - exists c. rewrite J. split; [now apply Hc | exact Sep].
      - apply S. lia. }
    destruct (Ascii.eqb c CHAR_DOT && negb (dots st =? -1));
      injection E as <-; apply keep.
Qed.

Lemma body_inv (path : string) (allowAboveRoot : bool) (i : Z) (st : NState) :
  inv path i st ->
  0 <= i <= len path ->
  match normalizeString_body path allowAboveRoot i st with
  | Continue st' => inv path (i + 1) st'
  | Break st' => relative (res st')
  end.
Proof.
  intros I Hi. unfold normalizeString_body.
  destruct (i <? len path) eqn:E.
  - apply Z.ltb_lt in E.
    destruct (@charCodeAt_in_range path i) as [a Ha]; [lia |].
    rewrite Ha.
    match goal with
    | |- match ?b with Continue _ => _ | Break _ => _ end =>
        destruct b as [st' | st'] eqn:B
    end.
    + apply (@after_char path allowAboveRoot i a st I Hi);
        [intros _; exact Ha | exact B].
    + destruct I as [R _].
      destruct (isPosixPathSeparator a);
        [destruct (_ || _); [| destruct (_ =? 2)] | destruct (_ && _)];
        discriminate B.
  - destruct (isPosixPathSeparator (code st)); [now destruct I |].
    match goal with
    | |- match ?b with Continue _ => _ | Break _ => _ end =>
        destruct b as [st' | st'] eqn:B
    end.
    + apply (@after_char path allowAboveRoot i CHAR_FORWARD_SLASH st I Hi);
        [intros F; discriminate F | exact B].
    + change (isPosixPathSeparator CHAR_FORWARD_SLASH) with true in B.
      cbv iota in B.
      destruct (_ || _); [| destruct (_ =? 2)]; discriminate B.
Qed.

Lemma loop_relative (path : string) (allowAboveRoot : bool) :
  forall (count : nat) (i : Z) (st : NState),
    inv path i st ->
    0 <= i ->
    i + Z.of_nat count = len path + 1 ->
    relative (res (for_up count i
                          (normalizeString_body path allowAboveRoot) st)).
Proof.
  induction count as [|count IH]; intros i st I Hi Hc.
  - now destruct I.
  - simpl for_up.
    pose proof (@body_inv path allowAboveRoot i st I) as B.
    destruct (normalizeString_body path allowAboveRoot i st) as [st' | st'].
    + apply IH; [apply B; lia | lia | lia].
    + apply B. lia.
Qed.

(** The result of [normalizeString] never begins with a separator. *)
Lemma normalizeString_relative (path : string) (allowAboveRoot : bool) :
  relative (normalizeString path allowAboveRoot).
Proof.
  unfold normalizeString. apply loop_relative.
  - split; [apply relative_empty |]. simpl. split; lia.
  - lia.
  - unfold len. lia.
Qed.

Lemma relative_not_absolute (s : string) : relative s -> isAbsolute s = false.
Proof. intros H. unfold isAbsolute. rewrite H. apply andb_false_r. Qed.

(** [normalize] keeps a relative path relative. *)
Lemma normalize_relative (p : string) :
  isAbsolute p = false -> isAbsolute (normalize p) = false.
Proof.
  intros H. unfold normalize.
  destruct (len p =? 0) eqn:E; [reflexivity |].
  assert (A : is_code (charCodeAt p 0) CHAR_FORWARD_SLASH = false).
  { unfold isAbsolute in H. apply andb_false_iff in H.
    destruct H as [H | H]; [| exact H].
    exfalso. apply Z.eqb_neq in E.
    rewrite Z.gtb_ltb in H. apply Z.ltb_ge in H.
    unfold len in *. lia. }
  cbv zeta. rewrite A. simpl negb.
  pose proof (normalizeString_relative p true) as R.
  destruct (len (normalizeString p true) =? 0) eqn:Z0.
  - destruct (is_code (charCodeAt p (len p - 1)) CHAR_FORWARD_SLASH);
      reflexivity.
  - apply relative_not_absolute.
    destruct (is_code (charCodeAt p (len p - 1)) _); [| exact R].
    apply relative_append; [| exact R].
    apply Z.eqb_neq in Z0. apply Z.gtb_lt. unfold len in *. lia.
Qed.

(** [normalize] never changes whether a path is absolute. *)
Lemma normalize_isAbsolute (p : string) :
  isAbsolute (normalize p) = isAbsolute p.
Proof.
  destruct (isAbsolute p) eqn:E.
  - now apply PosixFacts.normalize_absolute.
  - now apply normalize_relative.
Qed.

Lemma absolute_of_first (x : string) :
  is_code (charCodeAt x 0) CHAR_FORWARD_SLASH = true -> isAbsolute x = true.
Proof.
  destruct x as [|a x]; [discriminate |].
  intros H. unfold charCodeAt in H. simpl in H.
  apply Ascii.eqb_eq in H. subst a. apply PosixFacts.isAbsolute_cons.
Qed.

Lemma isAbsolute_first (x : string) :
  isAbsolute x = is_code (charCodeAt x 0) CHAR_FORWARD_SLASH.
Proof.
  destruct (is_code (charCodeAt x 0) CHAR_FORWARD_SLASH) eqn:E.
  - now apply absolute_of_first.
  - now apply relative_not_absolute.
Qed.

Lemma isAbsolute_append (v u : string) :
  v <> "" -> isAbsolute (v ++ u) = isAbsolute v.
Proof.
  intros H. rewrite !isAbsolute_first. now rewrite charCodeAt_append.
Qed.

Lemma append_assoc (a b c : string) : ((a ++ b) ++ c = a ++ (b ++ c))%string.
Proof. induction a as [|x a IH]; simpl; [reflexivity | now rewrite IH]. Qed.

(** Once something is joined, the loop of [join] only appends to it. *)
Lemma join_loop_extends (args : list string) :
  forall joined, exists u, join_loop args (Some joined) = Some (joined ++ u).
Proof.
  induction args as [|arg args IH]; intros joined.
  - exists "". simpl. f_equal.
    induction joined as [|x j IHj]; simpl; [reflexivity | now rewrite <- IHj].
  - cbn [join_loop]. destruct (len arg >? 0); [| apply IH].
    destruct (IH (joined ++ "/" ++ arg)) as [u E].
    exists (("/" ++ arg) ++ u). rewrite E. now rewrite append_assoc.
Qed.

(** [join] is absolute exactly when its first argument is, provided that
    argument is not zero-length. *)
Lemma join_isAbsolute (v : string) (paths : list string) :
  v <> "" -> isAbsolute (join (v :: paths)) = isAbsolute v.
Proof.
  intros H. unfold join. simpl join_loop.
  replace (len v >? 0) with true.
  - destruct (join_loop_extends paths v) as [u E]. rewrite E.
    rewrite normalize_isAbsolute. now apply isAbsolute_append.
  - symmetry. apply Z.gtb_lt. destruct v; [congruence |].
    unfold len. simpl String.length. lia.
Qed.

(** The loop of [dirname] ends on [-1] or on an index that is at least 1. *)
Lemma dirname_loop_end (path : string) :
  forall (n : nat) (st : Z * bool),
    fst st = -1 \/ 1 <= fst st ->
    fst (for_down 1 n (dirname_body path) st) = -1
    \/ 1 <= fst (for_down 1 n (dirname_body path) st).
Proof.
  induction n as [|k IH]; intros st H; [exact H |].
  simpl for_down. destruct (k <? 1)%nat eqn:K; [exact H |].
  apply Nat.ltb_ge in K.
  unfold dirname_body at 1 3. destruct st as [e m].
  destruct (is_code (charCodeAt path (Z.of_nat k)) CHAR_FORWARD_SLASH).
  - destruct m; simpl negb; cbv iota.
    + apply IH. exact H.
    + right. simpl. lia.
  - apply IH. simpl in *. exact H.
Qed.

(** [dirname] never changes whether a path is absolute. *)
Lemma dirname_isAbsolute (p : string) :
  isAbsolute (dirname p) = isAbsolute p.
Proof.
  unfold dirname.
  destruct (len p =? 0) eqn:E.
  - apply Z.eqb_eq in E.
    assert (p = "") as ->
        by (destruct p; [reflexivity | unfold len in E; simpl in E; lia]).
    reflexivity.
  - apply Z.eqb_neq in E.
    pose proof (dirname_loop_end p (String.length p) (-1, true)) as L.
    destruct (for_down 1 (String.length p) (dirname_body p) (-1, true))
      as [e m].
    simpl in L. specialize (L (or_introl eq_refl)).
    rewrite (isAbsolute_first p).
    destruct (is_code (charCodeAt p 0) CHAR_FORWARD_SLASH) eqn:A.
    + destruct (e =? -1) eqn:E0; [reflexivity |].
      simpl andb. destruct (e =? 1) eqn:E1; [reflexivity |].
      apply Z.eqb_neq in E0. apply absolute_of_first.
      rewrite charCodeAt_slice; [exact A | lia | | ].
      * destruct L; lia.
      * unfold len in *. lia.
    + destruct (e =? -1); [reflexivity |].
      simpl andb. cbv iota. apply relative_not_absolute.
      now apply relative_slice_prefix.
Qed.

End LeadFacts.

(** ** What a sequence of method calls asks of the algebra *)

Module CallFacts.
Import Filepath Calls.

Lemma invoke_effect (path : PathApi.t) (m : Method) (this : t) (tr : Trace) :
  exists r,
    invoke path m this tr =
    (Returns (r, after this m), (tr ++ call_list this m)%list).
Proof.
  destruct m as [ext | o | | | paths | | paths];
    try (eexists; unfold invoke, bind; simpl;
         rewrite <- ?app_assoc; reflexivity).
  destruct this as [v b api [parts|]]; eexists; unfold invoke, bind; simpl;
    rewrite ?app_nil_r; reflexivity.
Qed.

Lemma lifetime_effect (path : PathApi.t) (ms : list Method) :
  forall (this : t) (tr : Trace),
  exists rs,
    lifetime path ms this tr =
    (Returns (rs, final this ms), (tr ++ history this ms)%list)
    /\ List.length rs = List.length ms.
Proof.
  induction ms as [|m ms IH]; intros this tr.
  - exists []. simpl. rewrite app_nil_r. now split.
  - destruct (invoke_effect path m this tr) as [r E].
    destruct (IH (after this m) (tr ++ call_list this m)%list) as (rs & L & N).
    exists (r :: rs). split; [| simpl; now rewrite N].
    simpl. unfold bind at 1. rewrite E. simpl.
    unfold bind at 1. rewrite L. simpl.
    now rewrite <- app_assoc.
Qed.

Lemma parse_calls_app (a b : Trace) :
  parse_calls (a ++ b)%list = (parse_calls a + parse_calls b)%nat.
Proof. unfold parse_calls. now rewrite filter_app, length_app. Qed.


Lemma call_list_counts (this : t) (m : Method) :
  onError_calls (call_list this m) = 0%nat
  /\ parse_calls (call_list this m) =
     match _parts this with
     | None => if is_call_parse m then 1%nat else 0%nat
     | Some _ => 0%nat
     end.
Proof.
  destruct m; simpl; destruct (_parts this); now split.
Qed.


Lemma after_parts (this : t) (m : Method) :
  _parts (after this m) =
  if is_call_parse m
  then Some match _parts this with
            | Some parts => parts
            | None => PathApi.parse (_pathApi this) (_value this)
            end
  else _parts this.
Proof. destruct m; reflexivity. Qed.

Lemma history_parse_calls (ms : list Method) :
  forall this,
    parse_calls (history this ms) =
    match _parts this with
    | None => if has_parse ms then 1%nat else 0%nat
    | Some _ => 0%nat
    end
    /\ (_parts (final this ms) = None <->
        _parts this = None /\ has_parse ms = false).
Proof.
  induction ms as [|m ms IH]; intros this.
  - simpl. split; [now destruct (_parts this) |]. tauto.
  - simpl. rewrite parse_calls_app.
    destruct (call_list_counts this m) as [_ ->].
    destruct (IH (after this m)) as [-> F]. rewrite F.
    rewrite (after_parts this m).
    destruct (is_call_parse m); simpl.
    + destruct (_parts this); split; try lia;
        split; intros [H1 H2]; discriminate.
    + destruct (_parts this); split; try lia; tauto.
Qed.

End CallFacts.

(** ** Further properties of the class *)

(** X1: [dirname(options)] computes the parent with the algebra of [this],
    and the Filepath it returns is bound to the [pathApi] of the options when
    one is given (that algebra normalises the parent), to the algebra of
    [this] otherwise; likewise its base is the [base] of the options when
    given, the base of [this] otherwise.  No handler is invoked. *)
Theorem dirname_with_overrides (path : PathApi.t) (this : Filepath.t)
        (o : MakeFilepathOptions.t) (tr : Trace) :
  exists q tr',
    Filepath.dirname path this o tr = (Returns q, tr')
    /\ Filepath.pathApi q =
       or_default (MakeFilepathOptions.pathApi o) (Filepath.pathApi this)
    /\ Filepath.base q =
       match MakeFilepathOptions.base o with
       | Some b => Some b
       | None => Filepath.base this
       end
    /\ Filepath.valueOf q =
       PathApi.normalize (Filepath.pathApi q)
         (PathApi.dirname (Filepath.pathApi this) (Filepath.valueOf this))
    /\ onError_calls tr' = onError_calls tr.
Proof.
  do 2 eexists. split; [reflexivity |].
  repeat split.
  rewrite !onError_calls_snoc. simpl. lia.
Qed.

(** X2: [join] and [dirname] ask two things of the algebra, in this order:
    their own operation on the value of [this], then (from the constructor
    of the Filepath they return) [normalize] on the algebra's answer; what
    [normalize] answers is the value of the Filepath returned.  This is what
    the tests named "uses the provided pathApi" read from the test double. *)
Theorem derived_methods_call_lists (path : PathApi.t) (this : Filepath.t)
        (paths : list string) (tr : Trace) :
  let api := Filepath.pathApi this in
  let joined := PathApi.join api (Filepath.valueOf this :: paths) in
  let parent := PathApi.dirname api (Filepath.valueOf this) in
  (exists q,
      Filepath.join path this paths tr =
      (Returns q,
       (tr ++ [join_called (Filepath.valueOf this :: paths);
               normalize_called joined])%list)
      /\ Filepath.valueOf q = PathApi.normalize api joined)
  /\ (exists q,
         Filepath.dirname path this MakeFilepathOptions.empty tr =
         (Returns q,
          (tr ++ [dirname_called (Filepath.valueOf this);
                  normalize_called parent])%list)
         /\ Filepath.valueOf q = PathApi.normalize api parent).
Proof.
  intros api joined parent.
  split; eexists.
  - split.
    + rewrite join_eq. cbv zeta. rewrite <- app_assoc. reflexivity.
    + reflexivity.
  - split.
    + unfold Filepath.dirname, bind, call. rewrite constructor_eq. cbv zeta.
      rewrite <- app_assoc. reflexivity.
    + reflexivity.
Qed.


(** X4: the decomposition is lazy and computed exactly once: over the life
    of a constructed instance the algebra's [parse] is called once if the
    sequence of calls contains a [parse()], and not at all otherwise; the
    cache is still unset at the end exactly when there was no [parse()]. *)
Theorem parse_is_lazy (path : PathApi.t) (input : string)
        (o : MakeFilepathOptions.t) (ms : list Filepath.Method) (tr0 : Trace) :
  exists this tr1 rs this' tr2,
    Filepath.constructor path input o tr0 = (Returns this, tr1)
    /\ Filepath.lifetime path ms this tr1 = (Returns (rs, this'), tr2)
    /\ parse_calls tr2 =
       (parse_calls tr0 + if Calls.has_parse ms then 1 else 0)%nat
    /\ (Filepath._parts this' = None <-> Calls.has_parse ms = false).
Proof.
  pose (api := or_default (MakeFilepathOptions.pathApi o) path).
  pose (this := Filepath.mk (PathApi.normalize api input)
                            (MakeFilepathOptions.base o) api None).
  destruct (CallFacts.lifetime_effect path ms this
              (tr0 ++ [normalize_called input])%list) as (rs & E & _).
  destruct (CallFacts.history_parse_calls ms this) as [P F].
  exists this, (tr0 ++ [normalize_called input])%list, rs,
         (Calls.final this ms),
         ((tr0 ++ [normalize_called input]) ++ Calls.history this ms)%list.
  split; [apply constructor_eq |]. split; [exact E |]. split.
  - rewrite CallFacts.parse_calls_app, parse_calls_snoc, P. simpl. lia.
  - rewrite F. simpl. tauto.
Qed.

(** X5: a derived Filepath never inherits the cache: whatever [this] has
    cached, the Filepath returned by [join] or [dirname] has its cache unset,
    and its first [parse()] asks the algebra for the decomposition of its
    own value. *)
Theorem derived_cache_is_fresh (path : PathApi.t) (this : Filepath.t)
        (paths : list string) (o : MakeFilepathOptions.t) (tr : Trace) :
  (exists q tr',
      Filepath.join path this paths tr = (Returns q, tr')
      /\ Filepath._parts q = None
      /\ exists q',
          Filepath.parse q tr' =
          (Returns (PathApi.parse (Filepath.pathApi q) (Filepath.valueOf q),
                    q'),
           (tr' ++ [parse_called (Filepath.valueOf q)])%list))
  /\ (exists q tr',
         Filepath.dirname path this o tr = (Returns q, tr')
         /\ Filepath._parts q = None
         /\ exists q',
             Filepath.parse q tr' =
             (Returns (PathApi.parse (Filepath.pathApi q) (Filepath.valueOf q),
                       q'),
              (tr' ++ [parse_called (Filepath.valueOf q)])%list)).
Proof.
  split; do 2 eexists; (split; [reflexivity |]);
    (split; [reflexivity |]); eexists; reflexivity.
Qed.

(** X6: the two classes build the same value exactly when the input is a
    fixed point of the algebra's [normalize]; they always agree on the base
    and on the algebra. *)
Theorem variants_agree_iff_normalised (path : PathApi.t) (input : string)
        (o : MakeFilepathOptions.t) (tr : Trace) :
  exists f_raw tr_raw f tr',
    Filepath_raw.constructor path input o tr = (Returns f_raw, tr_raw)
    /\ Filepath.constructor path input o tr = (Returns f, tr')
    /\ Filepath_raw.base f_raw = Filepath.base f
    /\ Filepath_raw.pathApi f_raw = Filepath.pathApi f
    /\ (Filepath_raw.valueOf f_raw = Filepath.valueOf f
        <-> PathApi.normalize (Filepath.pathApi f) input = input).
Proof.
  do 4 eexists. rewrite raw_constructor_eq, constructor_eq. cbv zeta.
  split; [reflexivity |]. split; [reflexivity |].
  split; [reflexivity |]. split; [reflexivity |].
  unfold Filepath_raw.valueOf, Filepath.valueOf, Filepath.pathApi. simpl.
  split; intros H; now symmetry.
Qed.

(** ** Further properties with the POSIX algebra *)

(** X7: bound to the POSIX algebra, a Filepath never holds the empty string:
    construction from the empty string gives ["."], construction from any
    input and [dirname] of any Filepath give a non-empty value. *)
Theorem posix_value_never_empty (cwd : string) (path : PathApi.t)
        (input v : string) (b b' : option string)
        (parts : option ParsedPath.t) (tr : Trace) :
  (exists f tr',
      Filepath.constructor path input (with_posix cwd b) tr = (Returns f, tr')
      /\ Filepath.valueOf f <> ""
      /\ (input = "" -> Filepath.valueOf f = "."))
  /\ (exists q tr',
         Filepath.dirname path (Filepath.mk v b' (Posix.posix cwd) parts)
                          MakeFilepathOptions.empty tr = (Returns q, tr')
         /\ Filepath.valueOf q <> "").
Proof.
  split; do 2 eexists; (split; [reflexivity |]).
  - split; [apply PosixFacts.normalize_nonempty |]. now intros ->.
  - apply PosixFacts.normalize_nonempty.
Qed.

(** X8: bound to the POSIX algebra, construction never changes whether a
    path is absolute: [new Filepath(input).isAbsolute()] is true exactly
    when [input] begins with a separator. *)
Theorem construction_keeps_absoluteness (cwd : string) (path : PathApi.t)
        (input : string) (b : option string) (tr : Trace) :
  exists f tr' tr'',
    Filepath.constructor path input (with_posix cwd b) tr = (Returns f, tr')
    /\ Filepath.isAbsolute f tr' =
       (Returns (JS.is_code (JS.charCodeAt input 0) Posix.CHAR_FORWARD_SLASH),
        tr'').
Proof.
  do 3 eexists. split; [reflexivity |].
  unfold Filepath.isAbsolute, call. simpl.
  rewrite LeadFacts.normalize_isAbsolute, LeadFacts.isAbsolute_first.
  reflexivity.
Qed.

(** X9: bound to the POSIX algebra, [join] and [dirname] never change
    whether the path is absolute: the Filepath they return from
    [new Filepath(input)] is absolute exactly when [input] is, whatever the
    segments are (an absolute segment does not make the result absolute). *)
Theorem join_and_dirname_keep_absoluteness (cwd : string) (path : PathApi.t)
        (input : string) (b : option string) (paths : list string)
        (tr : Trace) :
  exists p tr1 q tr2 d tr3,
    Filepath.constructor path input (with_posix cwd b) tr = (Returns p, tr1)
    /\ Filepath.join path p paths tr1 = (Returns q, tr2)
    /\ Filepath.dirname path p MakeFilepathOptions.empty tr2 = (Returns d, tr3)
    /\ Posix.isAbsolute (Filepath.valueOf q) = Posix.isAbsolute input
    /\ Posix.isAbsolute (Filepath.valueOf d) = Posix.isAbsolute input.
Proof.
  do 6 eexists. split; [reflexivity |]. split; [reflexivity |].
  split; [reflexivity |].
  unfold Filepath.valueOf.
  cbn [Filepath._value Filepath._pathApi Posix.posix PathApi.normalize
       PathApi.join PathApi.dirname or_default with_posix
       MakeFilepathOptions.pathApi MakeFilepathOptions.empty].
  split.
  - rewrite LeadFacts.normalize_isAbsolute, LeadFacts.join_isAbsolute
      by apply PosixFacts.normalize_nonempty.
    apply LeadFacts.normalize_isAbsolute.
  - rewrite LeadFacts.normalize_isAbsolute, LeadFacts.dirname_isAbsolute.
    apply LeadFacts.normalize_isAbsolute.
Qed.
